(** * rust-worldgen: the lattice hash of [src/c/noiseval.c]

    The repository's C kernel is one function,

<<
    double generate_random_value(int x, int y, int seed) {
        int n = ((x * 157) + (y * 31337) + (seed * 2633)) & 0x7fffffff;
        n = (n << 13) ^ n;
        return (1.0 - ((n * (n * n * 15731 + 789221) + 1376312579)
                       & 0x7fffffff) / 1073741824.0);
    }
>>

    It is embedded here in two layers.

    - C [int] is a [Z] kept in the signed 32-bit range; every arithmetic
      operator of the source ([*], [+], [<<]) is followed by an explicit
      reduction [wrap32] to that range (two's-complement wrap-around, the
      arithmetic the hash is designed for).  [&] and [^] are [Z.land] and
      [Z.lxor], which on [Z] are the two's-complement bit operations.
    - C [double] is IEEE-754 binary64, taken from the [SpecFloat] module of
      the standard library ([prec = 53], [emax = 1024], round to nearest
      even).  Conversion of an [int], division and subtraction are the
      rounding operations of that module, not operations on reals. *)

From Stdlib Require Import ZArith Lia Bool Morphisms QArith Qpower SpecFloat.

Local Open Scope Z_scope.

(** ** 32-bit signed integers *)

Module Int32.

Definition min_signed : Z := - 2 ^ 31.
Definition max_signed : Z := 2 ^ 31 - 1.

(** The values a C [int] can hold. *)
Definition in_range (z : Z) : Prop := min_signed <= z <= max_signed.

Definition in_rangeb (z : Z) : bool :=
  (min_signed <=? z) && (z <=? max_signed).

(** Reduction modulo [2^32] to the signed representative. *)
Definition wrap32 (z : Z) : Z := (z + 2 ^ 31) mod 2 ^ 32 - 2 ^ 31.

Definition mul (a b : Z) : Z := wrap32 (a * b).
Definition add (a b : Z) : Z := wrap32 (a + b).
Definition shl (a n : Z) : Z := wrap32 (Z.shiftl a n).
Definition and (a b : Z) : Z := Z.land a b.
Definition xor (a b : Z) : Z := Z.lxor a b.

End Int32.

(** ** IEEE-754 binary64 *)

Module Double.

Definition prec : Z := 53.
Definition emax : Z := 1024.

Definition double : Type := spec_float.

(** [(double) n] for an integer [n]: the nearest binary64. *)
Definition of_int (n : Z) : double := binary_normalize prec emax n 0 false.

Definition sub (a b : double) : double := SFsub prec emax a b.
Definition div (a b : double) : double := SFdiv prec emax a b.
Definition opp (a : double) : double := SFopp a.

Definition leb (a b : double) : bool := SFleb a b.
Definition ltb (a b : double) : bool := SFltb a b.

(** The literals of the source: [1.0] is [2^52 * 2^-52] and
    [1073741824.0] is [2^52 * 2^-22]. *)
Definition one : double := S754_finite false 4503599627370496 (-52).
Definition two30 : double := S754_finite false 4503599627370496 (-22).

Definition is_finite (d : double) : bool :=
  match d with
  | S754_zero _ | S754_finite _ _ _ => true
  | S754_infinity _ | S754_nan => false
  end.

Definition is_nan (d : double) : bool :=
  match d with
  | S754_nan => true
  | _ => false
  end.

Definition valid (d : double) : bool := valid_binary prec emax d.

(** The rational number a finite double stands for. *)
Definition value (d : double) : option Q :=
  match d with
  | S754_zero _ => Some 0%Q
  | S754_finite s m e =>
      Some ((if s then - inject_Z (Zpos m) else inject_Z (Zpos m))
            * Qpower 2 e)%Q
  | S754_infinity _ | S754_nan => None
  end.

End Double.

(** ** The function *)

(** The two assignments to [n], then the integer under the conversion in
    the [return] expression. *)

Definition mix1 (x y seed : Z) : Z :=
  Int32.and
    (Int32.add (Int32.add (Int32.mul x 157) (Int32.mul y 31337))
               (Int32.mul seed 2633))
    0x7fffffff.

Definition mix2 (n : Z) : Z :=
  Int32.xor (Int32.shl n 13) n.

Definition mix3 (n : Z) : Z :=
  Int32.and
    (Int32.add
       (Int32.mul n
          (Int32.add (Int32.mul (Int32.mul n n) 15731) 789221))
       1376312579)
    0x7fffffff.

Definition normalize (k : Z) : Double.double :=
  Double.sub Double.one (Double.div (Double.of_int k) Double.two30).

Definition generate_random_value (x y seed : Z) : Double.double :=
  let n := mix1 x y seed in
  let n := mix2 n in
  normalize (mix3 n).

(** ** The algorithm as the specification words it

    Step by step, with the integer expressions evaluated over the
    unbounded integers and reduced once to 32 bits, which is what
    arithmetic modulo [2^32] means. *)

Module Reference.

Definition step1 (x y seed : Z) : Z :=
  Z.land (Int32.wrap32 (x * 157 + y * 31337 + seed * 2633)) 0x7fffffff.

Definition step2 (n1 : Z) : Z :=
  Z.lxor (Int32.wrap32 (Z.shiftl n1 13)) n1.

Definition step3_int (n2 : Z) : Z :=
  Z.land (Int32.wrap32 (n2 * (n2 * n2 * 15731 + 789221) + 1376312579))
         0x7fffffff.

Definition step3 (n2 : Z) : Double.double :=
  Double.sub Double.one
    (Double.div (Double.of_int (step3_int n2)) Double.two30).

Definition generate (x y seed : Z) : Double.double :=
  step3 (step2 (step1 x y seed)).

End Reference.

(** ** The function again, with every operand checked

    The same expression tree in an error monad: an operator applied to
    something that is not a 32-bit value, or a shift by a count outside
    [0..31], yields [None].  The operators themselves wrap around. *)

Module Checked.

Definition bind {A B : Type} (c : option A) (k : A -> option B) : option B :=
  match c with
  | Some a => k a
  | None => None
  end.

Notation "x <- c ;; k" := (bind c (fun x => k))
  (at level 61, c at next level, right associativity).

Definition binop (f : Z -> Z -> Z) (a b : Z) : option Z :=
  if Int32.in_rangeb a && Int32.in_rangeb b then Some (f a b) else None.

Definition mul : Z -> Z -> option Z := binop Int32.mul.
Definition add : Z -> Z -> option Z := binop Int32.add.
Definition and : Z -> Z -> option Z := binop Int32.and.
Definition xor : Z -> Z -> option Z := binop Int32.xor.

Definition shl (a n : Z) : option Z :=
  if Int32.in_rangeb a && ((0 <=? n) && (n <? 32))
  then Some (Int32.shl a n) else None.

Definition to_double (k : Z) : option Double.double :=
  if Int32.in_rangeb k then Some (Double.of_int k) else None.

Definition generate_random_value (x y seed : Z) : option Double.double :=
  a <- mul x 157 ;;
  b <- mul y 31337 ;;
  ab <- add a b ;;
  c <- mul seed 2633 ;;
  abc <- add ab c ;;
  n <- and abc 0x7fffffff ;;
  sh <- shl n 13 ;;
  n <- xor sh n ;;
  nn <- mul n n ;;
  t <- mul nn 15731 ;;
  u <- add t 789221 ;;
  v <- mul n u ;;
  w <- add v 1376312579 ;;
  k <- and w 0x7fffffff ;;
  d <- to_double k ;;
  Some (Double.sub Double.one (Double.div d Double.two30)).

End Checked.

(** ** The function in a floating-point environment

    The body names no variable but its parameters and the local [n].  The
    one piece of state a C expression on [double] reads without naming it is
    the dynamic rounding direction of [<fenv.h>]: the conversion, the
    division and the subtraction all round in the current direction.  Here
    the three operations take that direction as an argument.  Rounding to
    nearest is the one [SpecFloat] implements; the directed ones differ from
    it in the choice of the rounded mantissa, in what an overflow gives and
    in the sign of an exact zero difference. *)

Module Fenv.

Inductive rounding_mode : Type :=
  | FE_TONEAREST
  | FE_TOWARDZERO
  | FE_UPWARD
  | FE_DOWNWARD.

(** The mantissa chosen for magnitude [mx] with sign [sx], given where the
    exact value lies between [mx] and [mx + 1]. *)
Definition round (md : rounding_mode) (sx : bool) (mx : Z) (lx : location)
  : Z :=
  match md with
  | FE_TONEAREST => round_nearest_even mx lx
  | FE_TOWARDZERO => mx
  | FE_UPWARD =>
      match lx with
      | loc_Exact => mx
      | loc_Inexact _ => if sx then mx else mx + 1
      end
  | FE_DOWNWARD =>
      match lx with
      | loc_Exact => mx
      | loc_Inexact _ => if sx then mx + 1 else mx
      end
  end.

Definition max_finite (sx : bool) : spec_float :=
  S754_finite sx 9007199254740991 (Double.emax - Double.prec).

Definition overflow (md : rounding_mode) (sx : bool) : spec_float :=
  match md with
  | FE_TONEAREST => S754_infinity sx
  | FE_TOWARDZERO => max_finite sx
  | FE_UPWARD => if sx then max_finite sx else S754_infinity sx
  | FE_DOWNWARD => if sx then S754_infinity sx else max_finite sx
  end.

(** The sign of a difference that is exactly zero. *)
Definition zero_sign (md : rounding_mode) : bool :=
  match md with
  | FE_DOWNWARD => true
  | _ => false
  end.

Definition binary_round_aux (md : rounding_mode) (sx : bool) (mx ex : Z)
  (lx : location) : spec_float :=
  let '(mrs', e') := shr_fexp Double.prec Double.emax mx ex lx in
  let '(mrs'', e'') :=
    shr_fexp Double.prec Double.emax
      (round md sx (shr_m mrs') (loc_of_shr_record mrs')) e' loc_Exact in
  match shr_m mrs'' with
  | Z0 => S754_zero sx
  | Zpos m =>
      if e'' <=? Double.emax - Double.prec
      then S754_finite sx m e'' else overflow md sx
  | Zneg _ => S754_nan
  end.

Definition binary_round (md : rounding_mode) (sx : bool) (mx : positive)
  (ex : Z) : spec_float :=
  let '(mz, ez) :=
    shl_align mx ex
      (fexp Double.prec Double.emax (Zpos (digits2_pos mx) + ex)) in
  binary_round_aux md sx (Zpos mz) ez loc_Exact.

Definition binary_normalize (md : rounding_mode) (m e : Z) (szero : bool)
  : spec_float :=
  match m with
  | Z0 => S754_zero szero
  | Zpos m => binary_round md false m e
  | Zneg m => binary_round md true m e
  end.

Definition of_int (md : rounding_mode) (n : Z) : Double.double :=
  binary_normalize md n 0 false.

Definition div (md : rounding_mode) (x y : Double.double) : Double.double :=
  match x, y with
  | S754_nan, _ | _, S754_nan => S754_nan
  | S754_infinity sx, S754_infinity sy => S754_nan
  | S754_infinity sx, S754_finite sy _ _ => S754_infinity (xorb sx sy)
  | S754_finite sx _ _, S754_infinity sy => S754_zero (xorb sx sy)
  | S754_infinity sx, S754_zero sy => S754_infinity (xorb sx sy)
  | S754_zero sx, S754_infinity sy => S754_zero (xorb sx sy)
  | S754_finite sx _ _, S754_zero sy => S754_infinity (xorb sx sy)
  | S754_zero sx, S754_finite sy _ _ => S754_zero (xorb sx sy)
  | S754_zero sx, S754_zero sy => S754_nan
  | S754_finite sx mx ex, S754_finite sy my ey =>
      let '(mz, ez, lz) :=
        SFdiv_core_binary Double.prec Double.emax (Zpos mx) ex (Zpos my) ey in
      binary_round_aux md (xorb sx sy) mz ez lz
  end.

Definition sub (md : rounding_mode) (x y : Double.double) : Double.double :=
  match x, y with
  | S754_nan, _ | _, S754_nan => S754_nan
  | S754_infinity sx, S754_infinity sy =>
      match sx, sy with
      | true, false | false, true => x
      | _, _ => S754_nan
      end
  | S754_infinity _, _ => x
  | _, S754_infinity sy => S754_infinity (negb sy)
  | S754_zero sx, S754_zero sy =>
      match sx, sy with
      | true, false | false, true => x
      | _, _ => S754_zero (zero_sign md)
      end
  | S754_zero _, S754_finite sy my ey => S754_finite (negb sy) my ey
  | _, S754_zero _ => x
  | S754_finite sx mx ex, S754_finite sy my ey =>
      let ez := Z.min ex ey in
      binary_normalize md
        (cond_Zopp sx (Zpos (fst (shl_align mx ex ez)))
         - cond_Zopp sy (Zpos (fst (shl_align my ey ez))))
        ez (zero_sign md)
  end.

Definition normalize (md : rounding_mode) (k : Z) : Double.double :=
  sub md Double.one (div md (of_int md k) Double.two30).

(** The function, evaluated with the rounding direction [md] in force. *)
Definition generate_random_value (md : rounding_mode) (x y seed : Z)
  : Double.double :=
  let n := mix1 x y seed in
  let n := mix2 n in
  normalize md (mix3 n).

End Fenv.

(** ** Reading a decimal approximation

    [q] is [r] to within [tol]. *)

Definition within (tol q r : Q) : Prop := (r - tol <= q <= r + tol)%Q.

(** ** Shifting a mantissa *)

(** [pshl p n] is [p * 2^n] for [n >= 0], in the shape [shl_align] builds. *)
Definition pshl (p : positive) (n : Z) : positive :=
  match n with
  | Zpos d => Pos.iter xO p d
  | _ => p
  end.

(** Number of binary digits, as an integer. *)
Definition digits (p : positive) : Z := Zpos (digits2_pos p).

(** The 53-digit mantissa with the same leading bits as [p]. *)
Definition mant53 (p : positive) : positive := pshl p (53 - digits p).

(** The double that stands for [j / 2^30], for an integer [j] of at most
    53 binary digits. *)
Definition dyadic30 (j : Z) : Double.double :=
  match j with
  | Z0 => S754_zero false
  | Zpos p => S754_finite false (mant53 p) (digits p - 83)
  | Zneg p => S754_finite true (mant53 p) (digits p - 83)
  end.

(** ** Congruence modulo [2^32] *)

Definition eqm32 : Z -> Z -> Prop := eqm (2 ^ 32).

#[local] Instance eqm32_equiv : Equivalence eqm32 := eqm_setoid (2 ^ 32).
#[local] Instance add_eqm32 : Proper (eqm32 ==> eqm32 ==> eqm32) Z.add :=
  Zplus_eqm (2 ^ 32).
#[local] Instance mul_eqm32 : Proper (eqm32 ==> eqm32 ==> eqm32) Z.mul :=
  Zmult_eqm (2 ^ 32).

(** * Integer layer *)

Section Wrap.

Import Int32.

Lemma wrap32_range (z : Z) : in_range (wrap32 z).
Proof.
  unfold in_range, wrap32, min_signed, max_signed.
  pose proof (Z.mod_pos_bound (z + 2 ^ 31) (2 ^ 32) eq_refl). lia.
Qed.

Lemma wrap32_id (z : Z) : in_range z -> wrap32 z = z.
Proof.
  unfold in_range, wrap32, min_signed, max_signed. intros H.
  rewrite Z.mod_small; lia.
Qed.

Lemma wrap32_congr (a b : Z) :
  a mod 2 ^ 32 = b mod 2 ^ 32 -> wrap32 a = wrap32 b.
Proof.
  intros H. unfold wrap32.
  rewrite <- (Z.add_mod_idemp_l a), <- (Z.add_mod_idemp_l b) by lia.
  now rewrite H.
Qed.

Lemma wrap32_mod (z : Z) : wrap32 z mod 2 ^ 32 = z mod 2 ^ 32.
Proof.
  assert (wrap32 z = z + (- ((z + 2 ^ 31) / 2 ^ 32)) * 2 ^ 32) as E.
  { unfold wrap32. pose proof (Z.div_mod (z + 2 ^ 31) (2 ^ 32)). lia. }
  rewrite E. apply Z.mod_add. lia.
Qed.

Lemma wrap32_eqm (z : Z) : eqm32 (wrap32 z) z.
Proof. exact (wrap32_mod z). Qed.

Lemma wrap32_odd (z : Z) : Z.odd (wrap32 z) = Z.odd z.
Proof.
  assert (wrap32 z = z + 2 * (- ((z + 2 ^ 31) / 2 ^ 32) * 2 ^ 31)) as E.
  { unfold wrap32. pose proof (Z.div_mod (z + 2 ^ 31) (2 ^ 32)). lia. }
  rewrite E, Z.odd_add_mul_2. reflexivity.
Qed.

(** Masking with [0x7fffffff] keeps the low 31 bits. *)
Lemma land_mask (a : Z) : Z.land a 2147483647 = a mod 2 ^ 31.
Proof. exact (Z.land_ones a 31 ltac:(lia)). Qed.

Lemma land_mask_range (a : Z) : 0 <= Z.land a 2147483647 <= 2 ^ 31 - 1.
Proof.
  rewrite land_mask.
  pose proof (Z.mod_pos_bound a (2 ^ 31) eq_refl). lia.
Qed.

Lemma land_mask_odd (a : Z) : Z.odd (Z.land a 2147483647) = Z.odd a.
Proof.
  rewrite <- !Z.bit0_odd, Z.land_spec. cbn. apply andb_true_r.
Qed.

(** A value is in the signed range exactly when everything above bit 30
    is a copy of the sign. *)
Lemma in_range_shiftr (a : Z) :
  in_range a <-> Z.shiftr a 31 = 0 \/ Z.shiftr a 31 = -1.
Proof.
  unfold in_range, min_signed, max_signed.
  rewrite Z.shiftr_div_pow2 by lia.
  pose proof (Z.div_mod a (2 ^ 31)).
  pose proof (Z.mod_pos_bound a (2 ^ 31) eq_refl). lia.
Qed.

Lemma lxor_range (a b : Z) :
  in_range a -> in_range b -> in_range (Z.lxor a b).
Proof.
  rewrite !in_range_shiftr, Z.shiftr_lxor.
  intros [-> | ->] [-> | ->]; cbn; auto.
Qed.

End Wrap.

(** ** The three integer steps *)

Section Mix.

Import Int32.

Lemma mix1_range (x y seed : Z) : 0 <= mix1 x y seed <= 2 ^ 31 - 1.
Proof. apply land_mask_range. Qed.

Lemma mix1_reference (x y seed : Z) :
  mix1 x y seed = Reference.step1 x y seed.
Proof.
  unfold mix1, Reference.step1, Int32.and, add, mul. f_equal.
  apply wrap32_congr.
  change (eqm32 (wrap32 (wrap32 (x * 157) + wrap32 (y * 31337))
                 + wrap32 (seed * 2633))
                (x * 157 + y * 31337 + seed * 2633)).
  rewrite !wrap32_eqm. reflexivity.
Qed.

Lemma mix1_congr (x1 y1 seed1 x2 y2 seed2 : Z) :
  (x1 * 157 + y1 * 31337 + seed1 * 2633) mod 2 ^ 32
  = (x2 * 157 + y2 * 31337 + seed2 * 2633) mod 2 ^ 32 ->
  mix1 x1 y1 seed1 = mix1 x2 y2 seed2.
Proof.
  intros H. rewrite !mix1_reference. unfold Reference.step1.
  now rewrite (wrap32_congr _ _ H).
Qed.

Lemma mix2_range (n : Z) : in_range n -> in_range (mix2 n).
Proof.
  intros H. apply lxor_range; [apply wrap32_range | exact H].
Qed.

Lemma mix2_reference (n : Z) : mix2 n = Reference.step2 n.
Proof. reflexivity. Qed.

Lemma mix3_range (n : Z) : 0 <= mix3 n <= 2 ^ 31 - 1.
Proof. apply land_mask_range. Qed.

Lemma mix3_reference (n : Z) : mix3 n = Reference.step3_int n.
Proof.
  unfold mix3, Reference.step3_int, Int32.and, add, mul. f_equal.
  apply wrap32_congr.
  change (eqm32 (wrap32 (n * wrap32 (wrap32 (wrap32 (n * n) * 15731) + 789221))
                 + 1376312579)
                (n * (n * n * 15731 + 789221) + 1376312579)).
  rewrite !wrap32_eqm. reflexivity.
Qed.

(** The polynomial [15731 n^3 + 789221 n + 1376312579] is odd for every
    [n], and neither the reduction modulo [2^32] nor the mask touches
    bit 0. *)
Lemma mix3_odd (n : Z) : Z.odd (mix3 n) = true.
Proof.
  rewrite mix3_reference. unfold Reference.step3_int.
  rewrite land_mask_odd, wrap32_odd.
  rewrite Z.odd_add, Z.odd_mul, Z.odd_add, !Z.odd_mul.
  destruct (Z.odd n); reflexivity.
Qed.

Lemma mix3_pos (n : Z) : 1 <= mix3 n <= 2 ^ 31 - 1.
Proof.
  pose proof (mix3_range n) as R. pose proof (mix3_odd n) as O.
  destruct (Z.eq_dec (mix3 n) 0) as [E | E]; [| lia].
  rewrite E in O. discriminate.
Qed.

End Mix.

(** * Floating-point layer *)

Section Mantissa.

Lemma iter_xO_val (p d : positive) :
  Zpos (Pos.iter xO p d) = Zpos p * 2 ^ Zpos d.
Proof.
  induction d as [| d IH] using Pos.peano_ind.
  - cbn [Pos.iter]. lia.
  - rewrite Pos.iter_succ, (Pos2Z.inj_xO (Pos.iter xO p d)), IH, Pos2Z.inj_succ, Z.pow_succ_r by lia.
    lia.
Qed.

Lemma pshl_val (p : positive) (n : Z) :
  0 <= n -> Zpos (pshl p n) = Zpos p * 2 ^ n.
Proof.
  destruct n as [| d | d]; intros H; cbn [pshl].
  - lia.
  - apply iter_xO_val.
  - lia.
Qed.

Lemma pshl_pshl (p : positive) (a b : Z) :
  0 <= a -> 0 <= b -> pshl (pshl p a) b = pshl p (a + b).
Proof.
  intros Ha Hb. apply Pos2Z.inj.
  rewrite !pshl_val, Z.pow_add_r by lia. lia.
Qed.

Lemma digits_iter_xO (p d : positive) :
  digits (Pos.iter xO p d) = digits p + Zpos d.
Proof.
  unfold digits.
  induction d as [| d IH] using Pos.peano_ind.
  - cbn. lia.
  - rewrite Pos.iter_succ. cbn [digits2_pos].
    rewrite Pos2Z.inj_succ, IH. lia.
Qed.

Lemma digits_pshl (p : positive) (n : Z) :
  0 <= n -> digits (pshl p n) = digits p + n.
Proof.
  destruct n as [| d | d]; intros H; cbn [pshl].
  - lia.
  - apply digits_iter_xO.
  - lia.
Qed.

Lemma digits_pos (p : positive) : 1 <= digits p.
Proof. unfold digits. lia. Qed.

(** [digits p] is the [d] with [2^(d-1) <= p < 2^d]. *)
Lemma digits_bounds (p : positive) :
  2 ^ (digits p - 1) <= Zpos p < 2 ^ digits p.
Proof.
  unfold digits.
  induction p as [p IH | p IH |]; cbn [digits2_pos].
  - rewrite Pos2Z.inj_succ, Pos2Z.inj_xI.
    replace (Z.succ (Zpos (digits2_pos p)) - 1)
      with (Z.succ (Zpos (digits2_pos p) - 1)) by lia.
    rewrite !Z.pow_succ_r by lia. lia.
  - rewrite Pos2Z.inj_succ, (Pos2Z.inj_xO p).
    replace (Z.succ (Zpos (digits2_pos p)) - 1)
      with (Z.succ (Zpos (digits2_pos p) - 1)) by lia.
    rewrite !Z.pow_succ_r by lia. lia.
  - cbn. lia.
Qed.

Lemma digits_le (p : positive) (d : Z) :
  0 <= d -> Zpos p < 2 ^ d -> digits p <= d.
Proof.
  intros Hd Hp. pose proof (digits_bounds p) as [L _].
  pose proof (digits_pos p).
  destruct (Z_le_gt_dec (digits p) d) as [|G]; [assumption | exfalso].
  assert (2 ^ d <= 2 ^ (digits p - 1)) by (apply Z.pow_le_mono_r; lia).
  lia.
Qed.

Lemma digits_mant53 (p : positive) :
  digits p <= 53 -> digits (mant53 p) = 53.
Proof.
  intros H. unfold mant53. rewrite digits_pshl by lia. lia.
Qed.

Lemma mant53_val (p : positive) :
  digits p <= 53 -> Zpos (mant53 p) = Zpos p * 2 ^ (53 - digits p).
Proof. intros H. unfold mant53. apply pshl_val. lia. Qed.

End Mantissa.

(** ** Rounding never rounds here *)

Section Rounding.

Import Double.

Lemma fexp_normal (e : Z) : -1021 <= e -> fexp prec emax e = e - 53.
Proof. unfold fexp, emin, prec, emax. lia. Qed.

Lemma iter_pos_iter {A : Type} (f : A -> A) (n : positive) (x : A) :
  iter_pos f n x = Pos.iter f x n.
Proof.
  revert x. induction n as [n IH | n IH |]; intros x; cbn [iter_pos].
  - rewrite !IH, !Pos.iter_swap. reflexivity.
  - rewrite !IH. reflexivity.
  - reflexivity.
Qed.

(** Shifting out bits that are all zero leaves an exact record. *)
Lemma shr_exact (n m : positive) :
  iter_pos shr_1 n (Build_shr_record (Zpos (Pos.iter xO m n)) false false)
  = Build_shr_record (Zpos m) false false.
Proof.
  rewrite iter_pos_iter. revert m.
  induction n as [| n IH] using Pos.peano_ind; intros m.
  - reflexivity.
  - rewrite Pos.iter_succ, (Pos.iter_succ n positive xO).
    rewrite <- (Pos.iter_swap n positive xO), IH. reflexivity.
Qed.

Lemma shr_fexp_53 (m : positive) (e : Z) :
  digits m = 53 -> -1074 <= e ->
  shr_fexp prec emax (Zpos m) e loc_Exact
  = (Build_shr_record (Zpos m) false false, e).
Proof.
  intros D E. unfold shr_fexp. cbn [Zdigits2]. fold (digits m). rewrite D.
  rewrite fexp_normal by lia.
  replace (53 + e - 53 - e) with 0 by lia. reflexivity.
Qed.

(** A 53-digit mantissa with an exponent in range is already a double. *)
Lemma binary_round_aux_53 (s : bool) (m : positive) (e : Z) :
  digits m = 53 -> -1074 <= e <= 971 ->
  binary_round_aux prec emax s (Zpos m) e loc_Exact = S754_finite s m e.
Proof.
  intros D E. unfold binary_round_aux.
  rewrite shr_fexp_53 by lia. cbn [shr_m loc_of_shr_record round_nearest_even].
  rewrite shr_fexp_53 by lia. cbn [shr_m].
  replace (e <=? emax - prec) with true; [reflexivity |].
  symmetry. apply Z.leb_le. unfold emax, prec. lia.
Qed.

(** One more digit than fits, the last one zero. *)
Lemma binary_round_aux_54 (s : bool) (m : positive) (e : Z) :
  digits m = 53 -> -1075 <= e <= 970 ->
  binary_round_aux prec emax s (Zpos (xO m)) e loc_Exact
  = S754_finite s m (e + 1).
Proof.
  intros D E. unfold binary_round_aux.
  assert (shr_fexp prec emax (Zpos (xO m)) e loc_Exact
          = (Build_shr_record (Zpos m) false false, e + 1)) as ->.
  { unfold shr_fexp. cbn [Zdigits2 digits2_pos].
    rewrite Pos2Z.inj_succ. fold (digits m). rewrite D.
    rewrite fexp_normal by lia.
    replace (Z.succ 53 + e - 53 - e) with 1 by lia. reflexivity. }
  cbn [shr_m loc_of_shr_record round_nearest_even].
  rewrite shr_fexp_53 by lia. cbn [shr_m].
  replace (e + 1 <=? emax - prec) with true; [reflexivity |].
  symmetry. apply Z.leb_le. unfold emax, prec. lia.
Qed.

(** [binary_round] of [p * 2^t] normalises the mantissa to 53 digits and
    loses nothing when [p] has at most 53 digits. *)
Lemma binary_round_pshl (s : bool) (p : positive) (t e : Z) :
  0 <= t -> digits p <= 53 -> -1074 <= e + t + digits p - 53 <= 971 ->
  binary_round prec emax s (pshl p t) e
  = S754_finite s (mant53 p) (e + t + digits p - 53).
Proof.
  intros T D E. pose proof (digits_pos p) as P.
  unfold binary_round. fold (digits (pshl p t)).
  rewrite digits_pshl, fexp_normal by lia.
  unfold shl_align.
  destruct (digits p + t + e - 53 - e) as [| a | a] eqn:S.
  - replace (pshl p t) with (mant53 p)
      by (unfold mant53; f_equal; lia).
    rewrite binary_round_aux_53 by (try apply digits_mant53; lia).
    f_equal; lia.
  - assert (pshl p t = Pos.iter xO (mant53 p) a) as ->.
    { change (Pos.iter xO (mant53 p) a) with (pshl (mant53 p) (Zpos a)).
      unfold mant53. rewrite pshl_pshl by lia. f_equal; lia. }
    unfold binary_round_aux.
    assert (shr_fexp prec emax (Zpos (Pos.iter xO (mant53 p) a)) e loc_Exact
            = (Build_shr_record (Zpos (mant53 p)) false false, e + Zpos a))
      as ->.
    { unfold shr_fexp. cbn [Zdigits2].
      fold (digits (Pos.iter xO (mant53 p) a)).
      rewrite digits_iter_xO, digits_mant53, fexp_normal by lia.
      replace (53 + Zpos a + e - 53 - e) with (Zpos a) by lia.
      cbn [shr_record_of_loc shr]. now rewrite shr_exact. }
    cbn [shr_m loc_of_shr_record round_nearest_even].
    rewrite shr_fexp_53 by (try apply digits_mant53; lia). cbn [shr_m].
    replace (e + Zpos a <=? emax - prec) with true.
    + f_equal; lia.
    + symmetry. apply Z.leb_le. unfold emax, prec. lia.
  - assert (Pos.iter xO (pshl p t) a = mant53 p) as ->.
    { change (Pos.iter xO (pshl p t) a) with (pshl (pshl p t) (Zpos a)).
      unfold mant53. rewrite pshl_pshl by lia. f_equal; lia. }
    rewrite binary_round_aux_53 by (try apply digits_mant53; lia).
    f_equal; lia.
Qed.

End Rounding.

(** ** The three floating-point operations of the [return] expression *)

Section Operations.

Import Double.

(** [(double) k] is exact for every positive [k] of at most 53 digits. *)
Lemma of_int_pos (p : positive) :
  digits p <= 53 ->
  of_int (Zpos p) = S754_finite false (mant53 p) (digits p - 53).
Proof.
  intros D. pose proof (digits_pos p).
  unfold of_int, binary_normalize.
  change p with (pshl p 0) at 1.
  rewrite binary_round_pshl by lia. f_equal; lia.
Qed.

Lemma div_eucl_shift (m : positive) :
  Z.div_eucl (Z.shiftl (Zpos m) 53) 4503599627370496 = (Zpos (xO m), 0).
Proof.
  rewrite Z.shiftl_mul_pow2 by lia.
  pose proof (Z_div_mod (Zpos m * 2 ^ 53) 4503599627370496 eq_refl) as H.
  destruct (Z.div_eucl (Zpos m * 2 ^ 53) 4503599627370496) as [q r].
  change (2 ^ 53) with 9007199254740992 in H.
  f_equal; lia.
Qed.

(** Dividing by [2^30] only moves the exponent. *)
Lemma div_two30 (s : bool) (m : positive) (e : Z) :
  digits m = 53 -> -1000 <= e <= 971 ->
  div (S754_finite s m e) two30 = S754_finite s m (e - 30).
Proof.
  intros D E. unfold div, two30, SFdiv, SFdiv_core_binary.
  cbn [Zdigits2]. fold (digits m). rewrite D.
  change (Zpos (digits2_pos 4503599627370496)) with 53.
  rewrite fexp_normal by lia.
  replace (Z.min (53 + e - (53 + -22) - 53) (e - -22)) with (e - 31) by lia.
  replace (e - -22 - (e - 31)) with 53 by lia.
  rewrite div_eucl_shift.
  change (new_location 4503599627370496 0) with loc_Exact.
  rewrite xorb_false_r, binary_round_aux_54 by lia.
  f_equal; lia.
Qed.

Lemma shl_align_fst (m : positive) (ex ex' : Z) :
  ex' <= ex -> fst (shl_align m ex ex') = pshl m (ex - ex').
Proof.
  intros H. unfold shl_align.
  destruct (ex' - ex) as [| a | a] eqn:S; cbn [fst].
  - replace (ex - ex') with 0 by lia. reflexivity.
  - lia.
  - replace (ex - ex') with (Zpos a) by lia. reflexivity.
Qed.

(** [1.0 - p / 2^30] for a positive [p] below [2^31]: the difference of the
    aligned mantissas is [(2^30 - p) * 2^(53 - digits p)], which rounds to
    itself. *)
Lemma sub_one_dyadic (p : positive) :
  digits p <= 31 ->
  sub one (S754_finite false (mant53 p) (digits p - 83))
  = dyadic30 (2 ^ 30 - Zpos p).
Proof.
  intros D. pose proof (digits_pos p) as P.
  pose proof (digits_bounds p) as [_ U].
  assert (Zpos p < 2 ^ 31) as U'.
  { eapply Z.lt_le_trans; [exact U |]. apply Z.pow_le_mono_r; lia. }
  unfold sub, one, SFsub.
  replace (Z.min (-52) (digits p - 83)) with (digits p - 83) by lia.
  rewrite !shl_align_fst by lia. cbn [cond_Zopp].
  replace (digits p - 83 - (digits p - 83)) with 0 by lia. cbn [pshl].
  set (t := 53 - digits p).
  assert (Zpos (pshl 4503599627370496 (-52 - (digits p - 83)))
          - Zpos (mant53 p) = (2 ^ 30 - Zpos p) * 2 ^ t) as ->.
  { rewrite pshl_val, mant53_val by lia. fold t.
    replace (-52 - (digits p - 83)) with (t - 22) by lia.
    replace t with (22 + (t - 22)) at 2 3 by lia.
    rewrite Z.pow_add_r by lia.
    change (2 ^ 22) with 4194304. change (2 ^ 30) with 1073741824. lia. }
  destruct (2 ^ 30 - Zpos p) as [| q | q] eqn:J.
  - reflexivity.
  - assert (digits q <= 30).
    { apply digits_le; lia. }
    pose proof (digits_pos q).
    replace (Zpos q * 2 ^ t) with (Zpos (pshl q t))
      by (apply pshl_val; lia).
    cbn [binary_normalize dyadic30].
    rewrite binary_round_pshl by lia. f_equal; lia.
  - assert (digits q <= 30).
    { apply digits_le; lia. }
    pose proof (digits_pos q).
    replace (Zneg q * 2 ^ t) with (Zneg (pshl q t))
      by (rewrite <- !Pos2Z.opp_pos, pshl_val; lia).
    cbn [binary_normalize dyadic30].
    rewrite binary_round_pshl by lia. f_equal; lia.
Qed.

(** The whole [return] expression, for every [k] the mask can produce. *)
Lemma normalize_dyadic (k : Z) :
  0 <= k <= 2 ^ 31 - 1 -> normalize k = dyadic30 (2 ^ 30 - k).
Proof.
  intros K. unfold normalize.
  destruct k as [| p | p]; [reflexivity | | lia].
  assert (digits p <= 31) by (apply digits_le; lia).
  pose proof (digits_pos p).
  rewrite of_int_pos by lia.
  rewrite div_two30 by (try apply digits_mant53; lia).
  replace (digits p - 53 - 30) with (digits p - 83) by lia.
  now apply sub_one_dyadic.
Qed.

End Operations.

(** ** What [dyadic30] stands for, and how two of them compare *)

Section Dyadic.

Import Double.

Lemma dyadic30_finite (j : Z) : is_finite (dyadic30 j) = true.
Proof. destruct j; reflexivity. Qed.

Lemma bounded_mant53 (p : positive) :
  digits p <= 53 -> bounded prec emax (mant53 p) (digits p - 83) = true.
Proof.
  intros D. pose proof (digits_pos p). unfold bounded, canonical_mantissa.
  fold (digits (mant53 p)). rewrite digits_mant53, fexp_normal by lia.
  apply andb_true_intro. split.
  - apply Z.eqb_eq. lia.
  - apply Z.leb_le. unfold emax, prec. lia.
Qed.

Lemma dyadic30_valid (j : Z) :
  - 2 ^ 53 < j < 2 ^ 53 -> valid (dyadic30 j) = true.
Proof.
  intros J. destruct j as [| p | p]; [reflexivity | |];
    apply bounded_mant53; apply digits_le; lia.
Qed.

Lemma mant53_scale (p : positive) :
  digits p <= 53 ->
  (inject_Z (Zpos (mant53 p)) * Qpower 2 (digits p - 83)
   == inject_Z (Zpos p) / 1073741824)%Q.
Proof.
  intros D. pose proof (digits_pos p).
  rewrite mant53_val, inject_Z_mult, Zpower_Qpower by lia.
  rewrite <- Qmult_assoc, <- Qpower_plus by discriminate.
  replace (53 - digits p + (digits p - 83)) with (-30) by lia.
  reflexivity.
Qed.

Lemma dyadic30_value (j : Z) :
  - 2 ^ 53 < j < 2 ^ 53 ->
  exists q : Q,
    value (dyadic30 j) = Some q /\ (q == inject_Z j / 1073741824)%Q.
Proof.
  intros J. destruct j as [| p | p]; cbn [dyadic30 value].
  - exists 0%Q. split; reflexivity.
  - eexists. split; [reflexivity |].
    apply mant53_scale. apply digits_le; lia.
  - eexists. split; [reflexivity |].
    assert (D : digits p <= 53) by (apply digits_le; lia).
    pose proof (mant53_scale p D) as E.
    change (Zneg p) with (- Zpos p). rewrite inject_Z_opp.
    setoid_replace (- inject_Z (Zpos (mant53 p)) * Qpower 2 (digits p - 83))%Q
      with (- (inject_Z (Zpos (mant53 p)) * Qpower 2 (digits p - 83)))%Q
      by ring.
    rewrite E. unfold Qdiv. ring.
Qed.

(** Comparison of doubles, on the representatives, is comparison of the
    integers. *)
Lemma compare_mant53 (p1 p2 : positive) :
  digits p1 = digits p2 ->
  Pos.compare_cont Eq (mant53 p1) (mant53 p2) = (Zpos p1 ?= Zpos p2).
Proof.
  intros D. pose proof (digits_pos p1).
  change (Pos.compare_cont Eq (mant53 p1) (mant53 p2))
    with (Zpos (mant53 p1) ?= Zpos (mant53 p2)).
  unfold mant53. rewrite D.
  destruct (53 - digits p2) as [| a | a]; cbn [pshl]; try reflexivity.
  rewrite !iter_xO_val.
  symmetry. apply Zmult_compare_compat_r. lia.
Qed.

Lemma compare_pos_pos (p1 p2 : positive) :
  match digits p1 - 83 ?= digits p2 - 83 with
  | Lt => Lt
  | Gt => Gt
  | Eq => Pos.compare_cont Eq (mant53 p1) (mant53 p2)
  end = (Zpos p1 ?= Zpos p2).
Proof.
  pose proof (digits_bounds p1) as [L1 U1].
  pose proof (digits_bounds p2) as [L2 U2].
  destruct (Z.compare_spec (digits p1 - 83) (digits p2 - 83)) as [E | E | E].
  - apply compare_mant53. lia.
  - symmetry. apply Z.compare_lt_iff.
    assert (2 ^ digits p1 <= 2 ^ (digits p2 - 1))
      by (apply Z.pow_le_mono_r; lia).
    lia.
  - symmetry. apply Z.compare_gt_iff.
    assert (2 ^ digits p2 <= 2 ^ (digits p1 - 1))
      by (apply Z.pow_le_mono_r; lia).
    lia.
Qed.

Lemma compare_dyadic30 (j1 j2 : Z) :
  SFcompare (dyadic30 j1) (dyadic30 j2) = Some (j1 ?= j2).
Proof.
  destruct j1 as [| p1 | p1], j2 as [| p2 | p2];
    cbn [dyadic30 SFcompare]; try reflexivity.
  - now rewrite compare_pos_pos.
  - f_equal. transitivity (CompOpp (Zpos p1 ?= Zpos p2)); [| reflexivity].
    rewrite <- (compare_pos_pos p1 p2).
    destruct (digits p1 - 83 ?= digits p2 - 83); reflexivity.
Qed.

Lemma leb_dyadic30 (j1 j2 : Z) :
  j1 <= j2 -> leb (dyadic30 j1) (dyadic30 j2) = true.
Proof.
  intros H. unfold leb, SFleb. rewrite compare_dyadic30.
  destruct (Z.compare_spec j1 j2); first [reflexivity | lia].
Qed.

Lemma ltb_dyadic30 (j1 j2 : Z) :
  j1 < j2 -> ltb (dyadic30 j1) (dyadic30 j2) = true.
Proof.
  intros H. unfold ltb, SFltb. rewrite compare_dyadic30.
  destruct (Z.compare_spec j1 j2); first [reflexivity | lia].
Qed.

Lemma dyadic30_inj (j1 j2 : Z) : dyadic30 j1 = dyadic30 j2 -> j1 = j2.
Proof.
  intros H. pose proof (compare_dyadic30 j1 j2) as C.
  rewrite H, compare_dyadic30, Z.compare_refl in C.
  apply Z.compare_eq. congruence.
Qed.

End Dyadic.

(** * The function as a whole *)

Section Generate.

Import Double.

Lemma in_rangeb_true (z : Z) : Int32.in_range z -> Int32.in_rangeb z = true.
Proof.
  unfold Int32.in_range, Int32.in_rangeb. intros [L U].
  apply andb_true_intro. split; apply Z.leb_le; assumption.
Qed.

Lemma nonneg_in_range (z : Z) : 0 <= z <= 2 ^ 31 - 1 -> Int32.in_range z.
Proof. unfold Int32.in_range, Int32.min_signed, Int32.max_signed. lia. Qed.

Lemma binop_in_range (f : Z -> Z -> Z) (a b : Z) :
  Int32.in_range a -> Int32.in_range b -> Checked.binop f a b = Some (f a b).
Proof.
  intros A B. unfold Checked.binop.
  now rewrite !in_rangeb_true by assumption.
Qed.

(** The result in closed form: [(2^30 - k) / 2^30] with [k] the masked
    integer, an odd number between 1 and [2^31 - 1]. *)
Lemma generate_dyadic (x y seed : Z) :
  generate_random_value x y seed
  = dyadic30 (2 ^ 30 - mix3 (mix2 (mix1 x y seed))).
Proof.
  unfold generate_random_value. apply normalize_dyadic. apply mix3_range.
Qed.

Lemma one_dyadic : one = dyadic30 (2 ^ 30).
Proof. reflexivity. Qed.

Lemma minus_one_dyadic : opp one = dyadic30 (- 2 ^ 30).
Proof. reflexivity. Qed.

Lemma value_one_minus (k : Z) :
  0 <= k <= 2 ^ 31 - 1 ->
  exists q : Q,
    value (normalize k) = Some q /\ (q == 1 - inject_Z k / 1073741824)%Q.
Proof.
  intros K. rewrite normalize_dyadic by assumption.
  destruct (dyadic30_value (2 ^ 30 - k)) as [q [V E]]; [lia |].
  exists q. split; [exact V |].
  rewrite E. unfold Z.sub. rewrite inject_Z_plus, inject_Z_opp.
  change (inject_Z (2 ^ 30)) with 1073741824%Q. field.
Qed.

End Generate.

(** * The claims *)

Ltac int_range :=
  unfold Int32.in_range, Int32.min_signed, Int32.max_signed; lia.

(** C1. For 32-bit [x], [y], [seed], the function is the three-step
    algorithm of the specification: the masked linear combination, the
    shift-xor, and [1.0 - (masked cubic) / 1073741824.0], every integer
    expression taken modulo [2^32]; the two doubles are the same double. *)
Theorem generate_random_value_reference (x y seed : Z) :
  Int32.in_range x -> Int32.in_range y -> Int32.in_range seed ->
  mix1 x y seed = Reference.step1 x y seed /\
  mix2 (mix1 x y seed) = Reference.step2 (Reference.step1 x y seed) /\
  generate_random_value x y seed = Reference.generate x y seed.
Proof.
  intros _ _ _.
  unfold generate_random_value, Reference.generate, Reference.step3, normalize.
  rewrite mix3_reference, mix2_reference, mix1_reference. auto.
Qed.

Lemma generate_random_value_reference_witness :
  Int32.in_range 2000000000 /\ Int32.in_range (-7) /\ Int32.in_range 42 /\
  mix1 2000000000 (-7) 42 = Reference.step1 2000000000 (-7) 42 /\
  mix2 (mix1 2000000000 (-7) 42)
  = Reference.step2 (Reference.step1 2000000000 (-7) 42) /\
  generate_random_value 2000000000 (-7) 42
  = Reference.generate 2000000000 (-7) 42.
Proof.
  split; [int_range | split; [int_range | split; [int_range |]]].
  apply generate_random_value_reference; int_range.
Defined.

(** C2. For 32-bit [x], [y], [seed] the result lies in [[-1.0, 1.0)]:
    [-1.0 <= r] and [r < 1.0] as IEEE comparisons, and the same for the
    rational the result stands for. *)
Theorem generate_random_value_bounds (x y seed : Z) :
  Int32.in_range x -> Int32.in_range y -> Int32.in_range seed ->
  Double.leb (Double.opp Double.one) (generate_random_value x y seed) = true /\
  Double.ltb (generate_random_value x y seed) Double.one = true /\
  exists q : Q,
    Double.value (generate_random_value x y seed) = Some q /\
    (-1 <= q)%Q /\ (q < 1)%Q.
Proof.
  intros _ _ _. rewrite generate_dyadic.
  pose proof (mix3_pos (mix2 (mix1 x y seed))) as K.
  generalize dependent (mix3 (mix2 (mix1 x y seed))). intros k K.
  split; [| split].
  - rewrite minus_one_dyadic. apply leb_dyadic30. lia.
  - rewrite one_dyadic. apply ltb_dyadic30. lia.
  - destruct (dyadic30_value (2 ^ 30 - k)) as [q [V E]]; [lia |].
    exists q. split; [exact V |]. rewrite E.
    unfold Qle, Qlt, Qdiv, Qmult, Qinv, inject_Z. cbn [Qnum Qden]. lia.
Qed.

Lemma generate_random_value_bounds_witness :
  Int32.in_range 2000000000 /\ Int32.in_range 0 /\
  Double.leb (Double.opp Double.one) (generate_random_value 2000000000 0 0)
  = true /\
  Double.ltb (generate_random_value 2000000000 0 0) Double.one = true /\
  exists q : Q,
    Double.value (generate_random_value 2000000000 0 0) = Some q /\
    (-1 <= q)%Q /\ (q < 1)%Q.
Proof.
  split; [int_range | split; [int_range |]].
  apply generate_random_value_bounds; int_range.
Defined.

(** C3 (as amended). At the origin step 1 gives 0, step 2 gives 0, the mask
    in step 3 leaves 1376312579 unchanged, and the result is the double
    [1.0 - 1376312579 / 1073741824.0]; that double stands for exactly
    [1 - 1376312579/1073741824], which is -0.28179 to five decimals. *)
Theorem generate_random_value_origin :
  mix1 0 0 0 = 0 /\
  mix2 0 = 0 /\
  mix3 0 = Z.land 1376312579 2147483647 /\
  Z.land 1376312579 2147483647 = 1376312579 /\
  generate_random_value 0 0 0
  = Double.sub Double.one
      (Double.div (Double.of_int 1376312579) Double.two30) /\
  exists q : Q,
    Double.value (generate_random_value 0 0 0) = Some q /\
    (q == 1 - 1376312579 / 1073741824)%Q /\
    within (5 # 1000000) q (-28179 # 100000).
Proof.
  repeat (split; [vm_compute; reflexivity |]).
  destruct (value_one_minus 1376312579) as [q [V E]]; [lia |].
  exists q. split; [exact V |]. split; [exact E |].
  unfold within. rewrite E. split; vm_compute; discriminate.
Qed.

(** C3 as stated fails in its decimal: the double returned at the origin is
    not -0.28157, not even to within 0.0002. *)
Lemma origin_is_not_minus_028157 :
  ~ (generate_random_value 0 0 0
     = Double.sub Double.one
         (Double.div (Double.of_int 1376312579) Double.two30) /\
     exists q : Q,
       Double.value (generate_random_value 0 0 0) = Some q /\
       within (2 # 10000) q (-28157 # 100000)).
Proof.
  intros [_ [q [V [L _]]]].
  vm_compute in V. injection V as <-.
  vm_compute in L. apply L. reflexivity.
Qed.

Ltac solve_range :=
  first
    [ assumption
    | apply wrap32_range
    | apply nonneg_in_range, land_mask_range
    | apply lxor_range; solve_range
    | int_range ].

(** C4. For 32-bit [x], [y], [seed] the evaluation in which every operand is
    checked never reaches an error: it returns a double, the one the function
    computes, and that double is finite (neither NaN nor an infinity) and a
    valid binary64. *)
Theorem generate_random_value_total (x y seed : Z) :
  Int32.in_range x -> Int32.in_range y -> Int32.in_range seed ->
  exists d : Double.double,
    Checked.generate_random_value x y seed = Some d /\
    d = generate_random_value x y seed /\
    Double.is_finite d = true /\
    Double.valid d = true.
Proof.
  intros X Y S. exists (generate_random_value x y seed).
  split; [| split; [reflexivity |]].
  - unfold Checked.generate_random_value,
      Checked.mul, Checked.add, Checked.and, Checked.xor.
    repeat (rewrite binop_in_range by solve_range; cbn [Checked.bind]).
    unfold Checked.shl. rewrite in_rangeb_true by solve_range.
    change ((0 <=? 13) && (13 <? 32)) with true.
    cbn [andb Checked.bind].
    repeat (rewrite binop_in_range by solve_range; cbn [Checked.bind]).
    unfold Checked.to_double. rewrite in_rangeb_true by solve_range.
    cbn [Checked.bind].
    unfold generate_random_value, normalize, mix3, mix2, mix1. reflexivity.
  - rewrite generate_dyadic.
    pose proof (mix3_range (mix2 (mix1 x y seed))).
    split; [apply dyadic30_finite | apply dyadic30_valid; lia].
Qed.

Lemma generate_random_value_total_witness :
  Int32.in_range (-2147483648) /\ Int32.in_range 2147483647 /\
  Int32.in_range (-1) /\
  exists d : Double.double,
    Checked.generate_random_value (-2147483648) 2147483647 (-1) = Some d /\
    d = generate_random_value (-2147483648) 2147483647 (-1) /\
    Double.is_finite d = true /\
    Double.valid d = true.
Proof.
  split; [int_range | split; [int_range | split; [int_range |]]].
  apply generate_random_value_total; int_range.
Defined.

(** C5. After step 1 the accumulator is non-negative, between 0 and
    [2^31 - 1], whatever the wrapped sum under the mask is. *)
Theorem mix1_nonneg (x y seed : Z) :
  mix1 x y seed
  = Z.land (Int32.wrap32 (x * 157 + y * 31337 + seed * 2633)) 2147483647 /\
  0 <= mix1 x y seed <= 2 ^ 31 - 1.
Proof.
  split; [apply mix1_reference | apply mix1_range].
Qed.

(** C6. The results at (0,0,0), (1,0,0), (0,1,0) and (0,0,1) are four
    different doubles, and no two of them compare equal. *)
Theorem unit_offsets_distinct :
  let g000 := generate_random_value 0 0 0 in
  let g100 := generate_random_value 1 0 0 in
  let g010 := generate_random_value 0 1 0 in
  let g001 := generate_random_value 0 0 1 in
  (g100 <> g000 /\ g010 <> g000 /\ g001 <> g000 /\
   g100 <> g010 /\ g100 <> g001 /\ g010 <> g001) /\
  (SFeqb g100 g000 = false /\ SFeqb g010 g000 = false /\
   SFeqb g001 g000 = false /\ SFeqb g100 g010 = false /\
   SFeqb g100 g001 = false /\ SFeqb g010 g001 = false).
Proof.
  vm_compute. repeat split; discriminate.
Qed.

(** ** Every rounding direction gives the same double *)

Section Environment.

Import Double.

Variable md : Fenv.rounding_mode.

Lemma fenv_round_exact (sx : bool) (mx : Z) :
  Fenv.round md sx mx loc_Exact = mx.
Proof. destruct md; reflexivity. Qed.

Lemma fenv_round_aux_53 (s : bool) (m : positive) (e : Z) :
  digits m = 53 -> -1074 <= e <= 971 ->
  Fenv.binary_round_aux md s (Zpos m) e loc_Exact = S754_finite s m e.
Proof.
  intros D E. unfold Fenv.binary_round_aux.
  rewrite shr_fexp_53 by lia. cbn [shr_m loc_of_shr_record].
  rewrite fenv_round_exact, shr_fexp_53 by lia. cbn [shr_m].
  replace (e <=? emax - prec) with true; [reflexivity |].
  symmetry. apply Z.leb_le. unfold emax, prec. lia.
Qed.

Lemma fenv_round_aux_54 (s : bool) (m : positive) (e : Z) :
  digits m = 53 -> -1075 <= e <= 970 ->
  Fenv.binary_round_aux md s (Zpos (xO m)) e loc_Exact
  = S754_finite s m (e + 1).
Proof.
  intros D E. unfold Fenv.binary_round_aux.
  assert (shr_fexp prec emax (Zpos (xO m)) e loc_Exact
          = (Build_shr_record (Zpos m) false false, e + 1)) as ->.
  { unfold shr_fexp. cbn [Zdigits2 digits2_pos].
    rewrite Pos2Z.inj_succ. fold (digits m). rewrite D.
    rewrite fexp_normal by lia.
    replace (Z.succ 53 + e - 53 - e) with 1 by lia. reflexivity. }
  cbn [shr_m loc_of_shr_record].
  rewrite fenv_round_exact, shr_fexp_53 by lia. cbn [shr_m].
  replace (e + 1 <=? emax - prec) with true; [reflexivity |].
  symmetry. apply Z.leb_le. unfold emax, prec. lia.
Qed.

Lemma fenv_round_pshl (s : bool) (p : positive) (t e : Z) :
  0 <= t -> digits p <= 53 -> -1074 <= e + t + digits p - 53 <= 971 ->
  Fenv.binary_round md s (pshl p t) e
  = S754_finite s (mant53 p) (e + t + digits p - 53).
Proof.
  intros T D E. pose proof (digits_pos p) as P.
  unfold Fenv.binary_round. fold (digits (pshl p t)).
  rewrite digits_pshl, fexp_normal by lia.
  unfold shl_align.
  destruct (digits p + t + e - 53 - e) as [| a | a] eqn:S.
  - replace (pshl p t) with (mant53 p)
      by (unfold mant53; f_equal; lia).
    rewrite fenv_round_aux_53 by (try apply digits_mant53; lia).
    f_equal; lia.
  - assert (pshl p t = Pos.iter xO (mant53 p) a) as ->.
    { change (Pos.iter xO (mant53 p) a) with (pshl (mant53 p) (Zpos a)).
      unfold mant53. rewrite pshl_pshl by lia. f_equal; lia. }
    unfold Fenv.binary_round_aux.
    assert (shr_fexp prec emax (Zpos (Pos.iter xO (mant53 p) a)) e loc_Exact
            = (Build_shr_record (Zpos (mant53 p)) false false, e + Zpos a))
      as ->.
    { unfold shr_fexp. cbn [Zdigits2].
      fold (digits (Pos.iter xO (mant53 p) a)).
      rewrite digits_iter_xO, digits_mant53, fexp_normal by lia.
      replace (53 + Zpos a + e - 53 - e) with (Zpos a) by lia.
      cbn [shr_record_of_loc shr]. now rewrite shr_exact. }
    cbn [shr_m loc_of_shr_record].
    rewrite fenv_round_exact.
    rewrite shr_fexp_53 by (try apply digits_mant53; lia). cbn [shr_m].
    replace (e + Zpos a <=? emax - prec) with true.
    + f_equal; lia.
    + symmetry. apply Z.leb_le. unfold emax, prec. lia.
  - assert (Pos.iter xO (pshl p t) a = mant53 p) as ->.
    { change (Pos.iter xO (pshl p t) a) with (pshl (pshl p t) (Zpos a)).
      unfold mant53. rewrite pshl_pshl by lia. f_equal; lia. }
    rewrite fenv_round_aux_53 by (try apply digits_mant53; lia).
    f_equal; lia.
Qed.

Lemma fenv_of_int_pos (p : positive) :
  digits p <= 53 ->
  Fenv.of_int md (Zpos p) = S754_finite false (mant53 p) (digits p - 53).
Proof.
  intros D. pose proof (digits_pos p).
  unfold Fenv.of_int, Fenv.binary_normalize.
  change p with (pshl p 0) at 1.
  rewrite fenv_round_pshl by lia. f_equal; lia.
Qed.

Lemma fenv_div_two30 (s : bool) (m : positive) (e : Z) :
  digits m = 53 -> -1000 <= e <= 971 ->
  Fenv.div md (S754_finite s m e) two30 = S754_finite s m (e - 30).
Proof.
  intros D E. unfold Fenv.div, two30, SFdiv_core_binary.
  cbn [Zdigits2]. fold (digits m). rewrite D.
  change (Zpos (digits2_pos 4503599627370496)) with 53.
  rewrite fexp_normal by lia.
  replace (Z.min (53 + e - (53 + -22) - 53) (e - -22)) with (e - 31) by lia.
  replace (e - -22 - (e - 31)) with 53 by lia.
  rewrite div_eucl_shift.
  change (new_location 4503599627370496 0) with loc_Exact.
  rewrite xorb_false_r, fenv_round_aux_54 by lia.
  f_equal; lia.
Qed.

(** The difference is exact in every direction; only when it is zero does
    the direction show, in the sign of the zero. *)
Lemma fenv_sub_one_dyadic (p : positive) :
  digits p <= 31 -> Zpos p <> 2 ^ 30 ->
  Fenv.sub md one (S754_finite false (mant53 p) (digits p - 83))
  = dyadic30 (2 ^ 30 - Zpos p).
Proof.
  intros D NZ. pose proof (digits_pos p) as P.
  pose proof (digits_bounds p) as [_ U].
  assert (Zpos p < 2 ^ 31) as U'.
  { eapply Z.lt_le_trans; [exact U |]. apply Z.pow_le_mono_r; lia. }
  unfold Fenv.sub, one.
  replace (Z.min (-52) (digits p - 83)) with (digits p - 83) by lia.
  rewrite !shl_align_fst by lia. cbn [cond_Zopp].
  replace (digits p - 83 - (digits p - 83)) with 0 by lia. cbn [pshl].
  set (t := 53 - digits p).
  assert (Zpos (pshl 4503599627370496 (-52 - (digits p - 83)))
          - Zpos (mant53 p) = (2 ^ 30 - Zpos p) * 2 ^ t) as ->.
  { rewrite pshl_val, mant53_val by lia. fold t.
    replace (-52 - (digits p - 83)) with (t - 22) by lia.
    replace t with (22 + (t - 22)) at 2 3 by lia.
    rewrite Z.pow_add_r by lia.
    change (2 ^ 22) with 4194304. change (2 ^ 30) with 1073741824. lia. }
  destruct (2 ^ 30 - Zpos p) as [| q | q] eqn:J.
  - lia.
  - assert (digits q <= 30) by (apply digits_le; lia).
    pose proof (digits_pos q).
    replace (Zpos q * 2 ^ t) with (Zpos (pshl q t))
      by (apply pshl_val; lia).
    cbn [Fenv.binary_normalize dyadic30].
    rewrite fenv_round_pshl by lia. f_equal; lia.
  - assert (digits q <= 30) by (apply digits_le; lia).
    pose proof (digits_pos q).
    replace (Zneg q * 2 ^ t) with (Zneg (pshl q t))
      by (rewrite <- !Pos2Z.opp_pos, pshl_val; lia).
    cbn [Fenv.binary_normalize dyadic30].
    rewrite fenv_round_pshl by lia. f_equal; lia.
Qed.

Lemma fenv_normalize_dyadic (k : Z) :
  1 <= k <= 2 ^ 31 - 1 -> k <> 2 ^ 30 ->
  Fenv.normalize md k = dyadic30 (2 ^ 30 - k).
Proof.
  intros K NZ. unfold Fenv.normalize.
  destruct k as [| p | p]; [lia | | lia].
  assert (digits p <= 31) by (apply digits_le; lia).
  pose proof (digits_pos p).
  rewrite fenv_of_int_pos by lia.
  rewrite fenv_div_two30 by (try apply digits_mant53; lia).
  replace (digits p - 53 - 30) with (digits p - 83) by lia.
  now apply fenv_sub_one_dyadic.
Qed.

(** The integer under the conversion is odd, so the difference is never the
    zero whose sign would depend on the direction. *)
Lemma fenv_generate_dyadic (x y seed : Z) :
  Fenv.generate_random_value md x y seed
  = dyadic30 (2 ^ 30 - mix3 (mix2 (mix1 x y seed))).
Proof.
  unfold Fenv.generate_random_value.
  pose proof (mix3_pos (mix2 (mix1 x y seed))) as K.
  pose proof (mix3_odd (mix2 (mix1 x y seed))) as O.
  apply fenv_normalize_dyadic; [exact K |].
  intros E. rewrite E in O. discriminate.
Qed.

End Environment.

(** Rounding to nearest is the arithmetic of [Double], on every argument. *)
Lemma fenv_nearest_of_int (n : Z) :
  Fenv.of_int Fenv.FE_TONEAREST n = Double.of_int n.
Proof. reflexivity. Qed.

Lemma fenv_nearest_div (a b : Double.double) :
  Fenv.div Fenv.FE_TONEAREST a b = Double.div a b.
Proof. destruct a, b; reflexivity. Qed.

Lemma fenv_nearest_sub (a b : Double.double) :
  Fenv.sub Fenv.FE_TONEAREST a b = Double.sub a b.
Proof. destruct a as [[] | [] | | ], b as [[] | [] | | ]; reflexivity. Qed.

(** The three operations do read the direction: an inexact conversion, an
    inexact quotient and an exactly zero difference each come out
    differently. *)
Lemma fenv_direction_is_read :
  Fenv.of_int Fenv.FE_UPWARD 9007199254740993
  <> Fenv.of_int Fenv.FE_DOWNWARD 9007199254740993 /\
  Fenv.div Fenv.FE_UPWARD Double.one (Double.of_int 3)
  <> Fenv.div Fenv.FE_DOWNWARD Double.one (Double.of_int 3) /\
  Fenv.normalize Fenv.FE_DOWNWARD 1073741824
  <> Fenv.normalize Fenv.FE_TONEAREST 1073741824.
Proof. vm_compute. repeat split; discriminate. Qed.

(** C7. Two evaluations at the same arguments return the same double, bit
    for bit, whatever state they run in.  The body reads its three
    parameters and its local only; the state its floating-point operations
    read implicitly is the rounding direction, and for every pair of
    directions the two results are one double, the one computed under
    rounding to nearest. *)
Theorem generate_random_value_deterministic
  (md1 md2 : Fenv.rounding_mode) (x y seed : Z) :
  Fenv.generate_random_value md1 x y seed
  = Fenv.generate_random_value md2 x y seed /\
  Fenv.generate_random_value md1 x y seed = generate_random_value x y seed.
Proof.
  rewrite !fenv_generate_dyadic, generate_dyadic. split; reflexivity.
Qed.

(** C8. The result depends on the arguments only through
    [x*157 + y*31337 + seed*2633] modulo [2^32]: two triples with the same
    residue give the same double. *)
Theorem generate_random_value_linear (x1 y1 seed1 x2 y2 seed2 : Z) :
  (x1 * 157 + y1 * 31337 + seed1 * 2633) mod 2 ^ 32
  = (x2 * 157 + y2 * 31337 + seed2 * 2633) mod 2 ^ 32 ->
  generate_random_value x1 y1 seed1 = generate_random_value x2 y2 seed2.
Proof.
  intros H. unfold generate_random_value.
  now rewrite (mix1_congr _ _ _ _ _ _ H).
Qed.

(** Seed 1 is seed 0 moved by 820694371 lattice points in [x]. *)
Lemma generate_random_value_linear_witness :
  (-820694371 * 157 + 0 * 31337 + 0 * 2633) mod 2 ^ 32
  = (0 * 157 + 0 * 31337 + 1 * 2633) mod 2 ^ 32 /\
  generate_random_value (-820694371) 0 0 = generate_random_value 0 0 1.
Proof.
  split; [reflexivity |].
  apply generate_random_value_linear. reflexivity.
Defined.

(** The whole field of seed 1 is the field of seed 0 shifted in [x]:
    [157 * -820694371 = 2633] modulo [2^32]. *)
Lemma seed_one_is_shifted_seed_zero (x y : Z) :
  generate_random_value (Int32.add x (-820694371)) y 0
  = generate_random_value x y 1.
Proof.
  unfold generate_random_value. do 3 f_equal.
  apply mix1_congr. unfold Int32.add.
  change (eqm32 (Int32.wrap32 (x + -820694371) * 157 + y * 31337 + 0 * 2633)
                (x * 157 + y * 31337 + 1 * 2633)).
  rewrite wrap32_eqm. unfold eqm32, eqm.
  replace ((x + -820694371) * 157 + y * 31337 + 0 * 2633)
    with (x * 157 + y * 31337 + 1 * 2633 + -30 * 2 ^ 32) by lia.
  apply Z.mod_add. lia.
Qed.

(** C9. For 32-bit [x], [y], [seed] the result is at least the double
    [1.0 - 2147483647 / 1073741824.0], which stands for [-1 + 2^-30]; so it
    is above [-1.0] and is never [-1.0]. *)
Theorem generate_random_value_above_minus_one (x y seed : Z) :
  Int32.in_range x -> Int32.in_range y -> Int32.in_range seed ->
  Double.leb (normalize 2147483647) (generate_random_value x y seed) = true /\
  Double.ltb (Double.opp Double.one) (generate_random_value x y seed) = true /\
  generate_random_value x y seed <> Double.opp Double.one /\
  exists q : Q,
    Double.value (generate_random_value x y seed) = Some q /\
    (-1 + 1 / 1073741824 <= q)%Q /\ (-1 < q)%Q.
Proof.
  intros _ _ _. rewrite generate_dyadic.
  pose proof (mix3_range (mix2 (mix1 x y seed))) as K.
  generalize dependent (mix3 (mix2 (mix1 x y seed))). intros k K.
  split; [| split; [| split]].
  - rewrite normalize_dyadic by lia. apply leb_dyadic30. lia.
  - rewrite minus_one_dyadic. apply ltb_dyadic30. lia.
  - rewrite minus_one_dyadic. intros E. apply dyadic30_inj in E. lia.
  - destruct (dyadic30_value (2 ^ 30 - k)) as [q [V E]]; [lia |].
    exists q. split; [exact V |]. rewrite E.
    unfold Qle, Qlt, Qdiv, Qmult, Qinv, Qplus, inject_Z. cbn [Qnum Qden]. lia.
Qed.

Lemma generate_random_value_above_minus_one_witness :
  Int32.in_range 3 /\ Int32.in_range 4 /\ Int32.in_range 5 /\
  Double.leb (normalize 2147483647) (generate_random_value 3 4 5) = true /\
  Double.ltb (Double.opp Double.one) (generate_random_value 3 4 5) = true /\
  generate_random_value 3 4 5 <> Double.opp Double.one /\
  exists q : Q,
    Double.value (generate_random_value 3 4 5) = Some q /\
    (-1 + 1 / 1073741824 <= q)%Q /\ (-1 < q)%Q.
Proof.
  split; [int_range | split; [int_range | split; [int_range |]]].
  apply generate_random_value_above_minus_one; int_range.
Defined.

(** C10. Every result is [1.0 - k / 1073741824.0] for an integer [k] between
    0 and [2^31 - 1], and that double stands for exactly [1 - k/2^30]: it is
    a valid binary64 and nothing was rounded.  The results are therefore
    among the [2^31] doubles [normalize 0 .. normalize (2^31 - 1)]. *)
Theorem generate_random_value_quantized (x y seed : Z) :
  exists k : Z,
    0 <= k <= 2 ^ 31 - 1 /\
    generate_random_value x y seed = normalize k /\
    Double.valid (normalize k) = true /\
    exists q : Q,
      Double.value (normalize k) = Some q /\
      (q == 1 - inject_Z k / 1073741824)%Q.
Proof.
  exists (mix3 (mix2 (mix1 x y seed))).
  pose proof (mix3_range (mix2 (mix1 x y seed))) as K.
  split; [exact K |]. split; [reflexivity |]. split.
  - rewrite normalize_dyadic by exact K. apply dyadic30_valid. lia.
  - apply value_one_minus. exact K.
Qed.

(** * Further properties of the hash

    What the arithmetic of [generate_random_value] implies for its users:
    which bits of the arguments reach the result, which arguments collide,
    and which doubles can come out. *)

(** ** Low bits only ever depend on low bits *)

Section LowBits.

Variable m : Z.
Hypothesis m_range : 0 <= m <= 31.

#[local] Instance eqm_pow2_equiv : Equivalence (eqm (2 ^ m)) :=
  eqm_setoid (2 ^ m).
#[local] Instance add_eqm_pow2 :
  Proper (eqm (2 ^ m) ==> eqm (2 ^ m) ==> eqm (2 ^ m)) Z.add :=
  Zplus_eqm (2 ^ m).
#[local] Instance mul_eqm_pow2 :
  Proper (eqm (2 ^ m) ==> eqm (2 ^ m) ==> eqm (2 ^ m)) Z.mul :=
  Zmult_eqm (2 ^ m).

Lemma wrap32_eqm_pow2 (z : Z) : eqm (2 ^ m) (Int32.wrap32 z) z.
Proof.
  unfold eqm.
  assert (Int32.wrap32 z
          = z + (- ((z + 2 ^ 31) / 2 ^ 32) * 2 ^ (32 - m)) * 2 ^ m) as E.
  { rewrite <- Z.mul_assoc, <- Z.pow_add_r by lia.
    replace (32 - m + m) with 32 by lia.
    unfold Int32.wrap32. pose proof (Z.div_mod (z + 2 ^ 31) (2 ^ 32)). lia. }
  rewrite E. apply Z.mod_add. apply Z.pow_nonzero; lia.
Qed.

Lemma land_mask_eqm_pow2 (a : Z) : eqm (2 ^ m) (Z.land a 2147483647) a.
Proof.
  unfold eqm. rewrite land_mask.
  assert (a mod 2 ^ 31 = a + (- (a / 2 ^ 31) * 2 ^ (31 - m)) * 2 ^ m) as E.
  { rewrite <- Z.mul_assoc, <- Z.pow_add_r by lia.
    replace (31 - m + m) with 31 by lia.
    pose proof (Z.div_mod a (2 ^ 31)). lia. }
  rewrite E. apply Z.mod_add. apply Z.pow_nonzero; lia.
Qed.

(** Congruence modulo [2^m] is agreement on the bits below [m]. *)
Lemma eqm_pow2_bits (a b : Z) :
  eqm (2 ^ m) a b <->
  (forall i : Z, 0 <= i < m -> Z.testbit a i = Z.testbit b i).
Proof.
  unfold eqm. split.
  - intros H i I.
    rewrite <- (Z.mod_pow2_bits_low a m i), <- (Z.mod_pow2_bits_low b m i)
      by lia.
    now rewrite H.
  - intros H. apply Z.bits_inj'. intros i I.
    destruct (Z_lt_ge_dec i m) as [L | G].
    + rewrite !Z.mod_pow2_bits_low by lia. apply H. lia.
    + rewrite !Z.mod_pow2_bits_high by lia. reflexivity.
Qed.

#[local] Instance lxor_eqm_pow2 :
  Proper (eqm (2 ^ m) ==> eqm (2 ^ m) ==> eqm (2 ^ m)) Z.lxor.
Proof.
  intros a a' A b b' B. apply eqm_pow2_bits. intros i I.
  rewrite !Z.lxor_spec.
  rewrite (proj1 (eqm_pow2_bits a a') A i I).
  rewrite (proj1 (eqm_pow2_bits b b') B i I). reflexivity.
Qed.

Lemma mix1_eqm_pow2 (x y seed : Z) :
  eqm (2 ^ m) (mix1 x y seed) (x * 157 + y * 31337 + seed * 2633).
Proof.
  unfold mix1, Int32.and, Int32.add, Int32.mul.
  rewrite land_mask_eqm_pow2, !wrap32_eqm_pow2. reflexivity.
Qed.

Lemma mix2_eqm_pow2 (n : Z) :
  eqm (2 ^ m) (mix2 n) (Z.lxor (n * 2 ^ 13) n).
Proof.
  unfold mix2, Int32.xor, Int32.shl.
  rewrite wrap32_eqm_pow2, Z.shiftl_mul_pow2 by lia. reflexivity.
Qed.

Lemma mix3_eqm_pow2 (n : Z) :
  eqm (2 ^ m) (mix3 n) (n * (n * n * 15731 + 789221) + 1376312579).
Proof.
  unfold mix3, Int32.and, Int32.add, Int32.mul.
  rewrite land_mask_eqm_pow2, !wrap32_eqm_pow2. reflexivity.
Qed.

Lemma mix2_congr_pow2 (n n' : Z) :
  eqm (2 ^ m) n n' -> eqm (2 ^ m) (mix2 n) (mix2 n').
Proof.
  intros H. rewrite !mix2_eqm_pow2. now rewrite H.
Qed.

Lemma mix3_congr_pow2 (n n' : Z) :
  eqm (2 ^ m) n n' -> eqm (2 ^ m) (mix3 n) (mix3 n').
Proof.
  intros H. rewrite !mix3_eqm_pow2. now rewrite H.
Qed.

Lemma mixed_congr_pow2 (x1 y1 seed1 x2 y2 seed2 : Z) :
  eqm (2 ^ m) (x1 * 157 + y1 * 31337 + seed1 * 2633)
              (x2 * 157 + y2 * 31337 + seed2 * 2633) ->
  eqm (2 ^ m) (mix3 (mix2 (mix1 x1 y1 seed1)))
              (mix3 (mix2 (mix1 x2 y2 seed2))).
Proof.
  intros H. apply mix3_congr_pow2, mix2_congr_pow2.
  now rewrite !mix1_eqm_pow2.
Qed.

End LowBits.

(** ** The result sees 31 bits of the linear combination *)

Section Period.

Lemma masked_congr_eq (k k' : Z) :
  0 <= k <= 2 ^ 31 - 1 -> 0 <= k' <= 2 ^ 31 - 1 ->
  eqm (2 ^ 31) k k' -> k = k'.
Proof.
  unfold eqm. intros K K' H.
  rewrite (Z.mod_small k), (Z.mod_small k') in H by lia. exact H.
Qed.

Lemma mix3_congr31 (n n' : Z) :
  n mod 2 ^ 31 = n' mod 2 ^ 31 -> mix3 n = mix3 n'.
Proof.
  intros H. apply masked_congr_eq; try apply mix3_range.
  apply mix3_congr_pow2; [lia | exact H].
Qed.

Lemma mix32_congr31 (n n' : Z) :
  n mod 2 ^ 31 = n' mod 2 ^ 31 -> mix3 (mix2 n) = mix3 (mix2 n').
Proof.
  intros H. apply mix3_congr31.
  apply (mix2_congr_pow2 31); [lia | exact H].
Qed.

Lemma generate_congr31 (x1 y1 seed1 x2 y2 seed2 : Z) :
  (x1 * 157 + y1 * 31337 + seed1 * 2633) mod 2 ^ 31
  = (x2 * 157 + y2 * 31337 + seed2 * 2633) mod 2 ^ 31 ->
  generate_random_value x1 y1 seed1 = generate_random_value x2 y2 seed2.
Proof.
  intros H. unfold generate_random_value. f_equal.
  apply masked_congr_eq; try apply mix3_range.
  apply mixed_congr_pow2; [lia | exact H].
Qed.

Lemma generate_congr32 (x1 y1 seed1 x2 y2 seed2 : Z) :
  eqm32 (x1 * 157 + y1 * 31337 + seed1 * 2633)
        (x2 * 157 + y2 * 31337 + seed2 * 2633) ->
  generate_random_value x1 y1 seed1 = generate_random_value x2 y2 seed2.
Proof.
  intros H. unfold generate_random_value.
  now rewrite (mix1_congr _ _ _ _ _ _ H).
Qed.

End Period.

(** X1. Two argument triples whose linear combinations
    [x*157 + y*31337 + seed*2633] agree modulo [2^31] give the same double:
    bit 31 of the combination is cleared by the first mask and never comes
    back. *)
Theorem generate_random_value_period_31 (x1 y1 seed1 x2 y2 seed2 : Z) :
  (x1 * 157 + y1 * 31337 + seed1 * 2633) mod 2 ^ 31
  = (x2 * 157 + y2 * 31337 + seed2 * 2633) mod 2 ^ 31 ->
  generate_random_value x1 y1 seed1 = generate_random_value x2 y2 seed2.
Proof. exact (generate_congr31 x1 y1 seed1 x2 y2 seed2). Qed.

Lemma generate_random_value_period_31_witness :
  (1 * 157 + 2 * 31337 + 3 * 2633) mod 2 ^ 31
  = (-2147483647 * 157 + 2 * 31337 + 3 * 2633) mod 2 ^ 31 /\
  generate_random_value 1 2 3 = generate_random_value (-2147483647) 2 3.
Proof.
  split; [reflexivity |].
  apply generate_random_value_period_31. reflexivity.
Defined.

(** X2. Adding [INT_MIN] to an argument, that is flipping its top bit,
    changes nothing: in each of [x], [y] and [seed] the function has period
    [2^31]. *)
Theorem top_bit_of_each_argument_is_ignored (x y seed : Z) :
  generate_random_value (Int32.add x Int32.min_signed) y seed
  = generate_random_value x y seed /\
  generate_random_value x (Int32.add y Int32.min_signed) seed
  = generate_random_value x y seed /\
  generate_random_value x y (Int32.add seed Int32.min_signed)
  = generate_random_value x y seed.
Proof.
  unfold Int32.add, Int32.min_signed.
  repeat split; apply generate_congr31.
  - pose proof (wrap32_eqm_pow2 31 ltac:(lia) (x + - 2 ^ 31)) as W.
    unfold eqm in W.
    rewrite <- Z.add_assoc, <- Z.add_mod_idemp_l, <- Z.mul_mod_idemp_l, W,
      Z.mul_mod_idemp_l, Z.add_mod_idemp_l by lia.
    replace ((x + - 2 ^ 31) * 157 + (y * 31337 + seed * 2633))
      with (x * 157 + y * 31337 + seed * 2633 + -157 * 2 ^ 31) by ring.
    apply Z.mod_add. lia.
  - pose proof (wrap32_eqm_pow2 31 ltac:(lia) (y + - 2 ^ 31)) as W.
    unfold eqm in W.
    rewrite (Z.add_comm (x * 157)), <- Z.add_assoc, <- Z.add_mod_idemp_l,
      <- Z.mul_mod_idemp_l, W, Z.mul_mod_idemp_l, Z.add_mod_idemp_l by lia.
    replace ((y + - 2 ^ 31) * 31337 + (x * 157 + seed * 2633))
      with (x * 157 + y * 31337 + seed * 2633 + -31337 * 2 ^ 31) by ring.
    apply Z.mod_add. lia.
  - pose proof (wrap32_eqm_pow2 31 ltac:(lia) (seed + - 2 ^ 31)) as W.
    unfold eqm in W.
    rewrite (Z.add_comm _ (Int32.wrap32 _ * 2633)), <- Z.add_mod_idemp_l,
      <- Z.mul_mod_idemp_l, W, Z.mul_mod_idemp_l, Z.add_mod_idemp_l by lia.
    replace ((seed + - 2 ^ 31) * 2633 + (x * 157 + y * 31337))
      with (x * 157 + y * 31337 + seed * 2633 + -2633 * 2 ^ 31) by ring.
    apply Z.mod_add. lia.
Qed.

(** X3. The hash is triangular in the bits: for every [m] up to 31, the low
    [m] bits of the integer that is converted to a double depend only on the
    low [m] bits of [x*157 + y*31337 + seed*2633].  Multiplication, addition,
    left shift, xor and the masks never carry information downwards. *)
Theorem low_bits_depend_on_low_bits (m x1 y1 seed1 x2 y2 seed2 : Z) :
  0 <= m <= 31 ->
  (x1 * 157 + y1 * 31337 + seed1 * 2633) mod 2 ^ m
  = (x2 * 157 + y2 * 31337 + seed2 * 2633) mod 2 ^ m ->
  mix3 (mix2 (mix1 x1 y1 seed1)) mod 2 ^ m
  = mix3 (mix2 (mix1 x2 y2 seed2)) mod 2 ^ m.
Proof.
  intros M H. exact (mixed_congr_pow2 m M _ _ _ _ _ _ H).
Qed.

Lemma low_bits_depend_on_low_bits_witness :
  0 <= 8 <= 31 /\
  (5 * 157 + 0 * 31337 + 9 * 2633) mod 2 ^ 8
  = (261 * 157 + 0 * 31337 + 9 * 2633) mod 2 ^ 8 /\
  mix3 (mix2 (mix1 5 0 9)) mod 2 ^ 8 = mix3 (mix2 (mix1 261 0 9)) mod 2 ^ 8.
Proof.
  split; [lia |]. split; [reflexivity |].
  apply low_bits_depend_on_low_bits; [lia | reflexivity].
Defined.

(** X4. The seed only translates the field: adding [s] to [seed] is the same
    as adding [-820694371 * s] to [x], because
    [157 * -820694371 = 2633] modulo [2^32].  All sums and products are the
    wrapping ones of C [int]. *)
Theorem seed_is_a_translation_in_x (x y seed s : Z) :
  generate_random_value x y (Int32.add seed s)
  = generate_random_value (Int32.add x (Int32.mul (-820694371) s)) y seed.
Proof.
  apply generate_congr32. unfold Int32.add, Int32.mul.
  rewrite !wrap32_eqm. unfold eqm32, eqm.
  replace (x * 157 + y * 31337 + (seed + s) * 2633)
    with ((x + -820694371 * s) * 157 + y * 31337 + seed * 2633
          + (30 * s) * 2 ^ 32) by ring.
  apply Z.mod_add. lia.
Qed.

(** X5. The field repeats along the lattice direction [(31337, -157)]:
    moving [x] by [31337 * t] and [y] by [-157 * t] leaves the linear
    combination, and so the result, unchanged. *)
Theorem field_repeats_along_31337_minus_157 (x y seed t : Z) :
  generate_random_value (Int32.add x (Int32.mul 31337 t))
                        (Int32.add y (Int32.mul (-157) t)) seed
  = generate_random_value x y seed.
Proof.
  apply generate_congr32. unfold Int32.add, Int32.mul.
  rewrite !wrap32_eqm.
  replace ((x + 31337 * t) * 157 + (y + -157 * t) * 31337 + seed * 2633)
    with (x * 157 + y * 31337 + seed * 2633) by ring.
  reflexivity.
Qed.

(** ** Which doubles come out *)

(** X6. Every result is [j / 2^30] for an odd integer [j] with
    [-2^30 < j < 2^30].  So it is never zero, it is a normal binary64 (not a
    subnormal, an infinity or a NaN), and the largest value it can take is
    [1.0 - 1 / 1073741824.0]. *)
Theorem result_is_an_odd_multiple_of_2_pow_minus_30 (x y seed : Z) :
  exists (j : Z) (q : Q),
    Z.odd j = true /\ - 2 ^ 30 < j < 2 ^ 30 /\
    Double.value (generate_random_value x y seed) = Some q /\
    (q == inject_Z j / 1073741824)%Q /\
    SFeqb (generate_random_value x y seed) (S754_zero false) = false /\
    (SFclassify Double.prec (generate_random_value x y seed)
     = FloatClass.PNormal \/
     SFclassify Double.prec (generate_random_value x y seed)
     = FloatClass.NNormal) /\
    Double.leb (generate_random_value x y seed) (normalize 1) = true.
Proof.
  rewrite generate_dyadic.
  pose proof (mix3_pos (mix2 (mix1 x y seed))) as K.
  pose proof (mix3_odd (mix2 (mix1 x y seed))) as O.
  generalize dependent (mix3 (mix2 (mix1 x y seed))). intros k K O.
  assert (Z.odd (2 ^ 30 - k) = true) as J.
  { rewrite Z.odd_sub, O. reflexivity. }
  destruct (dyadic30_value (2 ^ 30 - k)) as [q [V E]]; [lia |].
  exists (2 ^ 30 - k), q.
  split; [exact J |]. split; [lia |]. split; [exact V |]. split; [exact E |].
  split; [| split].
  - change (S754_zero false) with (dyadic30 0).
    unfold SFeqb. rewrite compare_dyadic30.
    destruct (Z.compare_spec (2 ^ 30 - k) 0) as [Z0 | |]; try reflexivity.
    rewrite Z0 in J. discriminate.
  - destruct (2 ^ 30 - k) as [| p | p] eqn:P; [discriminate | |];
      assert (digits p <= 53) by (apply digits_le; lia);
      [left | right]; cbn [dyadic30 SFclassify];
      fold (digits (mant53 p)); rewrite digits_mant53 by assumption;
      reflexivity.
  - rewrite normalize_dyadic by lia. apply leb_dyadic30. lia.
Qed.

(** ** The shift-xor step loses nothing *)

Section XorShift.

Import Int32.

Lemma wrap32_testbit (z i : Z) :
  0 <= i < 32 -> Z.testbit (wrap32 z) i = Z.testbit z i.
Proof.
  intros I.
  rewrite <- (Z.mod_pow2_bits_low (wrap32 z) 32 i), wrap32_mod,
    Z.mod_pow2_bits_low by lia.
  reflexivity.
Qed.

Lemma mix2_testbit (n i : Z) :
  0 <= i < 32 ->
  Z.testbit (mix2 n) i = xorb (Z.testbit n (i - 13)) (Z.testbit n i).
Proof.
  intros I. unfold mix2, xor, shl.
  now rewrite Z.lxor_spec, wrap32_testbit, Z.shiftl_spec by lia.
Qed.

Lemma in_range_bits_inj (a b : Z) :
  in_range a -> in_range b ->
  (forall i : Z, 0 <= i < 32 -> Z.testbit a i = Z.testbit b i) -> a = b.
Proof.
  intros A B H.
  rewrite <- (wrap32_id a A), <- (wrap32_id b B).
  apply wrap32_congr, Z.bits_inj'. intros i I.
  destruct (Z_lt_ge_dec i 32) as [L | G].
  - rewrite !Z.mod_pow2_bits_low by lia. apply H. lia.
  - rewrite !Z.mod_pow2_bits_high by lia. reflexivity.
Qed.

Lemma mix2_bits_inj (n n' : Z) :
  mix2 n = mix2 n' ->
  forall i : Z, 0 <= i -> i < 32 -> Z.testbit n i = Z.testbit n' i.
Proof.
  intros H i I. pattern i. apply Z_lt_induction; [| exact I].
  clear i I. intros i IH L.
  destruct (Z_lt_ge_dec i 0) as [N | I].
  { now rewrite !Z.testbit_neg_r by lia. }
  pose proof (mix2_testbit n i ltac:(lia)) as T.
  rewrite H, (mix2_testbit n' i) in T by lia.
  assert (Z.testbit n (i - 13) = Z.testbit n' (i - 13)) as P.
  { destruct (Z_lt_ge_dec i 13).
    - now rewrite !Z.testbit_neg_r by lia.
    - apply IH; lia. }
  rewrite P in T.
  destruct (Z.testbit n' (i - 13)), (Z.testbit n i), (Z.testbit n' i);
    cbn in T; congruence.
Qed.

End XorShift.

(** X7. Step 2, [n = (n << 13) ^ n], is one-to-one on 32-bit values: two
    different accumulators never become the same one. *)
Theorem mix2_injective (n n' : Z) :
  Int32.in_range n -> Int32.in_range n' -> mix2 n = mix2 n' -> n = n'.
Proof.
  intros N N' H. apply in_range_bits_inj; try assumption.
  intros i I. apply (mix2_bits_inj n n' H); lia.
Qed.

Lemma mix2_injective_witness :
  Int32.in_range 123456789 /\ Int32.in_range (100000000 + 23456789) /\
  mix2 123456789 = mix2 (100000000 + 23456789) /\
  123456789 = 100000000 + 23456789.
Proof.
  split; [int_range | split; [int_range | split; [reflexivity |]]].
  apply mix2_injective; [int_range | int_range | reflexivity].
Defined.

(** X8. The sign the accumulator has after step 2 never reaches the result:
    step 3 gives the same integer for [n] and for [n & 0x7fffffff], so
    masking after step 2 as well would return the same double. *)
Theorem sign_after_step_2_is_irrelevant (x y seed : Z) :
  (forall n : Z, mix3 (Int32.and n 2147483647) = mix3 n) /\
  generate_random_value x y seed
  = normalize (mix3 (Int32.and (mix2 (mix1 x y seed)) 2147483647)).
Proof.
  assert (forall n : Z, mix3 (Int32.and n 2147483647) = mix3 n) as M.
  { intros n. apply mix3_congr31. unfold Int32.and.
    exact (land_mask_eqm_pow2 31 ltac:(lia) n). }
  split; [exact M |].
  unfold generate_random_value. now rewrite M.
Qed.
